(** * docs/convert_try_blocks.py: the try-block rewriter and its driver

    A shallow embedding of the script that turns explicit [try do ... end]
    blocks of Elixir test files into the implicit form, and the properties
    of its specification.

    - Python [str] values are lists of Unicode code points ([N]).
    - [re.sub] is a backtracking matcher in continuation-passing style that
      tries the alternatives in the priority order of Python's [re] module
      (greedy: longest first, lazy: shortest first, [|]: left first).
    - The file system is a finite map from paths to decoded file contents;
      the script's effects are recorded in an event trace. *)

From Stdlib Require Import NArith List String Ascii Lia DecimalString.
From stdpp Require Import base option list gmap strings.

Local Open Scope N_scope.
Local Open Scope list_scope.

(** ** Text *)

Definition codepoint : Type := N.
Abbreviation text := (list codepoint).

(** A string literal of the script, as the list of its code points. *)
Definition str (s : string) : text :=
  List.map N_of_ascii (list_ascii_of_string s).

(** ['\n'] *)
Definition nl : codepoint := 10.

(** [\s] on a [str] pattern: CPython's [Py_UNICODE_ISSPACE]. *)
Definition is_space (c : codepoint) : bool :=
  ((9 <=? c) && (c <=? 13))            (* \t \n \v \f \r *)
  || ((28 <=? c) && (c <=? 32))        (* FS GS RS US and the space *)
  || (c =? 133) || (c =? 160)          (* U+0085, U+00A0 *)
  || (c =? 5760)                       (* U+1680 *)
  || ((8192 <=? c) && (c <=? 8202))    (* U+2000 .. U+200A *)
  || (c =? 8232) || (c =? 8233)        (* U+2028, U+2029 *)
  || (c =? 8239) || (c =? 8287)        (* U+202F, U+205F *)
  || (c =? 12288).                     (* U+3000 *)

(** [.] under [re.DOTALL]: every character, the newline included. *)
Definition dot_all (c : codepoint) : bool := true.

(** ** Regular expressions, as far as [try_pattern] uses them *)

Inductive regex : Type :=
| Lit (p : text)                         (* a literal string *)
| Plus (cls : codepoint -> bool)         (* X+  greedy, X one character *)
| LazyStar (cls : codepoint -> bool)     (* X*? lazy, X one character *)
| Alt (r1 r2 : regex)                    (* r1|r2 *)
| Cat (r1 r2 : regex)                    (* r1r2 *)
| Group (n : nat) (r : regex).           (* the n-th capturing group *)

(** Captured groups: [None] for a group that took no part in the match. *)
Definition groups : Type := nat -> option text.

Definition no_groups : groups := fun _ => None.

Definition set_group (n : nat) (m : text) (g : groups) : groups :=
  fun i => if Nat.eqb i n then Some m else g i.

(** A match object: the matched span, its groups, and the text after it. *)
Record match_obj : Type := MatchObj {
  m_span : text;
  m_groups : groups;
  m_rest : text
}.

(** [match.group(n)]; the groups read by the script always take part. *)
Definition group (m : match_obj) (n : nat) : text :=
  match m_groups m n with
  | Some t => t
  | None => []
  end.

Fixpoint strip_prefix (p s : text) : option text :=
  match p, s with
  | [], _ => Some s
  | a :: p', b :: s' => if a =? b then strip_prefix p' s' else None
  | _ :: _, [] => None
  end.

Section Matcher.
Context {A : Type}.

(** A continuation gets the text the sub-pattern consumed, the text left
    and the groups, and either completes the match or fails, which makes
    the sub-pattern try its next alternative. *)
Definition cont : Type := text -> text -> groups -> option A.

(** [X*] greedy: take as many as possible, give back one at a time. *)
Fixpoint greedy_star (cls : codepoint -> bool) (taken s : text)
    (g : groups) (k : cont) : option A :=
  match s with
  | c :: s' =>
      if cls c then
        match greedy_star cls (taken ++ [c]) s' g k with
        | Some r => Some r
        | None => k taken s g
        end
      else k taken s g
  | [] => k taken [] g
  end.

(** [X*?] lazy: take as few as possible, one more on each failure. *)
Fixpoint lazy_star (cls : codepoint -> bool) (taken s : text)
    (g : groups) (k : cont) : option A :=
  match k taken s g with
  | Some r => Some r
  | None =>
      match s with
      | c :: s' => if cls c then lazy_star cls (taken ++ [c]) s' g k else None
      | [] => None
      end
  end.

Fixpoint rmatch (r : regex) (s : text) (g : groups) (k : cont) : option A :=
  match r with
  | Lit p =>
      match strip_prefix p s with
      | Some rest => k p rest g
      | None => None
      end
  | Plus cls =>
      match s with
      | c :: s' => if cls c then greedy_star cls [c] s' g k else None
      | [] => None
      end
  | LazyStar cls => lazy_star cls [] s g k
  | Alt r1 r2 =>
      match rmatch r1 s g k with
      | Some x => Some x
      | None => rmatch r2 s g k
      end
  | Cat r1 r2 =>
      rmatch r1 s g (fun m1 s1 g1 =>
        rmatch r2 s1 g1 (fun m2 s2 g2 => k (m1 ++ m2) s2 g2))
  | Group n r' =>
      rmatch r' s g (fun m s' g' => k m s' (set_group n m g'))
  end.
End Matcher.

(** [pattern.match(s)]: the first match, in priority order, at the start
    of [s]. *)
Definition re_match (r : regex) (s : text) : option match_obj :=
  rmatch r s no_groups (fun m rest g => Some (MatchObj m g rest)).

(** [re.sub(r, repl, s)] for a pattern that matches no empty string: scan
    left to right; at the first position where [r] matches, emit [repl] of
    the match and go on after the matched span ([skip] counts the
    characters of that span still to pass over); elsewhere copy the
    character. *)
Fixpoint sub_from (r : regex) (repl : match_obj -> text) (skip : nat)
    (s : text) : text :=
  match s with
  | [] => []
  | c :: s' =>
      match skip with
      | S n => sub_from r repl n s'
      | O =>
          match re_match r s with
          | Some m => repl m ++ sub_from r repl (length (m_span m) - 1) s'
          | None => c :: sub_from r repl 0 s'
          end
      end
  end.

Definition re_sub (r : regex) (repl : match_obj -> text) (s : text) : text :=
  sub_from r repl 0 s.

(** ** The rewriter *)

(** [(?:rescue|catch|after)] *)
Definition handler_keyword : regex :=
  Alt (Lit (str "rescue")) (Alt (Lit (str "catch")) (Lit (str "after"))).

(** [\n\s+(?:rescue|catch|after)]: the start of group 3. *)
Definition handler_head : regex :=
  Cat (Lit [nl]) (Cat (Plus is_space) handler_keyword).

(** [\n\s+end]: group 4. *)
Definition end_clause_re : regex :=
  Cat (Lit [nl]) (Cat (Plus is_space) (Lit (str "end"))).

(** [(\s+)try do\n(.*?)(\n\s+(?:rescue|catch|after).*?)(\n\s+end)] with
    [re.DOTALL | re.MULTILINE]; the pattern has no [^] or [$], so
    [re.MULTILINE] changes nothing. *)
Definition try_pattern : regex :=
  Cat (Group 1 (Plus is_space))
 (Cat (Lit (str "try do" ++ [nl]))
 (Cat (Group 2 (LazyStar dot_all))
 (Cat (Group 3 (Cat handler_head (LazyStar dot_all)))
      (Group 4 end_clause_re)))).

Definition replace_try_block (m : match_obj) : text :=
  let indent := group m 1 in
  let try_body := group m 2 in
  let rescue_clauses := group m 3 in
  let end_clause := group m 4 in
  try_body ++ rescue_clauses.

(** The Rewriter of the specification: the text transformation of
    [convert_try_blocks] without its file access, returning the new content
    and whether it differs from the original. *)
Definition rewriter (content : text) : text * bool :=
  let original_content := content in
  let content := re_sub try_pattern replace_try_block content in
  (content, bool_decide (content <> original_content)).

(** A text given line by line: the lines joined by ['\n'], with no newline
    after the last one. *)
Fixpoint unlines (ls : list string) : text :=
  match ls with
  | [] => []
  | [l] => str l
  | l :: ls' => str l ++ nl :: unlines ls'
  end.

(** ** The file system and the effects of the script *)

Inductive event : Type :=
| EvRead (path : string)                     (* open(path, 'r'), f.read() *)
| EvWrite (path : string) (content : text).  (* open(path, 'w'), f.write(content) *)

(** The exceptions that [open] and [read] raise. *)
Inductive error : Type :=
| FileNotFoundError (path : string)
| IsADirectoryError (path : string)
| PermissionError (path : string)
| UnicodeDecodeError (path : string).

(** The text files that exist, with their decoded contents (what a
    text-mode [f.read()] returns); the file accesses made so far; the lines
    printed so far; and the other entries that exist, each with the
    exception that opening or reading it raises (a directory, a file
    without permission, bytes that do not decode).  [blocked] counts only
    for a path that has no entry in [files].  A file is known by its path:
    two path strings are two files, and a text file that can be read can be
    written. *)
Record world : Type := World {
  files : gmap string text;
  trace : list event;
  stdout : list string;
  blocked : gmap string error
}.

(** Computations that change the world or stop with an uncaught exception. *)
Definition io (A : Type) : Type := world -> error + (A * world).

Definition ret {A : Type} (a : A) : io A := fun w => inr (a, w).

Definition bind {A B : Type} (m : io A) (f : A -> io B) : io B :=
  fun w =>
    match m w with
    | inl e => inl e
    | inr (a, w') => f a w'
    end.

Declare Scope io_scope.
Delimit Scope io_scope with io.
Notation "x <- m ;; k" := (bind m (fun x => k))
  (at level 100, m at next level, right associativity) : io_scope.
Notation "m ;; k" := (bind m (fun _ => k))
  (at level 100, right associativity) : io_scope.
Local Open Scope io_scope.


(** [with open(path, 'r') as f: f.read()] *)
Definition read_file (path : string) : io text :=
  fun w =>
    match files w !! path with
    | Some content =>
        inr (content,
             World (files w) (trace w ++ [EvRead path]) (stdout w)
                   (blocked w))
    | None =>
        match blocked w !! path with
        | Some e => inl e
        | None => inl (FileNotFoundError path)
        end
    end.

(** [with open(path, 'w') as f: f.write(content)] *)
Definition write_file (path : string) (content : text) : io unit :=
  fun w =>
    inr (tt, World (<[path := content]> (files w))
                   (trace w ++ [EvWrite path content]) (stdout w)
                   (blocked w)).


Definition convert_try_blocks (file_path : string) : io bool :=
  content <- read_file file_path ;;
  let original_content := content in
  let content := re_sub try_pattern replace_try_block content in
  if bool_decide (content <> original_content) then
    (write_file file_path content ;; ret true)
  else ret false.



(** [str(n)], as the f-string renders [len(changed_files)]. *)
Definition decimal (n : nat) : string :=
  NilZero.string_of_uint (Nat.to_uint n).




(** ** Predicates used to state the properties *)

(** [needle in s]: [needle] occurs somewhere in [s]. *)
Fixpoint contains (needle s : text) : bool :=
  match strip_prefix needle s with
  | Some _ => true
  | None =>
      match s with
      | [] => false
      | _ :: s' => contains needle s'
      end
  end.

(** [r] matches at the start of [s]. *)
Definition matches_at (r : regex) (s : text) : bool :=
  match re_match r s with
  | Some _ => true
  | None => false
  end.

(** [r] matches at no position of [pre ++ post] that lies inside [pre]. *)
Fixpoint no_match_in (r : regex) (pre post : text) : bool :=
  match pre with
  | [] => true
  | _ :: pre' => negb (matches_at r (pre ++ post)) && no_match_in r pre' post
  end.

(** A non-empty run of whitespace: what [\s+] can take. *)
Definition indentation (ws : text) : Prop :=
  ws <> [] /\ forallb is_space ws = true.

(** The text left starts with no character of the class. *)
Definition stops (cls : codepoint -> bool) (rest : text) : Prop :=
  match rest with
  | c :: _ => cls c = false
  | [] => True
  end.

(** The pieces of a block, as [try_pattern] reads them: the block-open
    line with its indentation, a handler clause (newline, indentation,
    keyword, content) and the terminator (newline, indentation, [end]). *)
Definition open_line (ws : text) : text := ws ++ str "try do" ++ [nl].

Definition handler_clause (ws kw content : text) : text :=
  nl :: ws ++ kw ++ content.

Definition end_line (ws : text) : text := nl :: ws ++ str "end".

(** The groups of a match whose four groups are the given texts. *)
Definition block_groups (g1 g2 g3 g4 : text) : groups :=
  set_group 4 g4 (set_group 3 g3 (set_group 2 g2 (set_group 1 g1 no_groups))).

(** The three handler-clause keywords. *)
Definition is_handler_keyword (kw : text) : Prop :=
  kw = str "rescue" \/ kw = str "catch" \/ kw = str "after".

(** The strings of a pattern, with the groups it sets: the declarative
    reading of [regex], without the order in which [rmatch] tries them. *)
Fixpoint in_lang (r : regex) (m : text) (g g' : groups) : Prop :=
  match r with
  | Lit p => m = p /\ g' = g
  | Plus cls => m <> [] /\ forallb cls m = true /\ g' = g
  | LazyStar cls => forallb cls m = true /\ g' = g
  | Alt r1 r2 => in_lang r1 m g g' \/ in_lang r2 m g g'
  | Cat r1 r2 =>
      exists m1 m2 g1, m = m1 ++ m2 /\ in_lang r1 m1 g g1 /\ in_lang r2 m2 g1 g'
  | Group n r' => exists g1, in_lang r' m g g1 /\ g' = set_group n m g1
  end.




(** ** Example texts *)

(** A block inside a function: the block-open line follows the line
    [def f do]. *)
Definition block_in_function : text :=
  unlines ["def f do"; "    try do"; "      x()"; "    rescue";
           "      e -> e"; "    end"; "end"]%string.

(** A block whose body holds another block. *)
Definition nested_blocks : text :=
  unlines [" try do"; "  try do"; "   a"; "  rescue"; "   b"; "  end";
           " rescue"; "  c"; " end"]%string.

(** A block whose handler clause is indented deeper than the block-open
    line, and one whose terminator is. *)
Definition handler_indented_deeper : text :=
  unlines ["  try do"; "    x"; "          rescue"; "      e -> e";
           "  end"]%string.

Definition terminator_indented_deeper : text :=
  unlines ["  try do"; "    x"; "  rescue"; "    e -> e";
           "        end"]%string.

(** A world with one file, which holds a block inside a function. *)
Definition one_file_world : world :=
  World {[ "/tmp/a_test.exs"%string := block_in_function ]} [] [] ∅.





(** [s] starts with [p]; [s] ends with [p]. *)
Definition starts_with (p s : text) : bool :=
  match strip_prefix p s with
  | Some _ => true
  | None => false
  end.

Definition ends_with (p s : text) : bool := starts_with (rev p) (rev s).

(** The needle lies across the cut between [a] and [b]: a part of it, not
    empty and not the whole, ends [a], and what is left of it starts
    [b]. *)
Definition straddles (needle a b : text) : bool :=
  existsb
    (fun k => ends_with (firstn k needle) a && starts_with (skipn k needle) b)
    (seq 1 (length needle - 1)).

(** [clean input kept]: [input] is made of blocks that do not nest, and
    [kept] is [input] without their block-open lines and terminators.
    Either [input] holds no [try do] at all; or it is a stretch [gap] in
    which the pattern does not match, then a block that the pattern
    matches whole (its body holds no handler line, its handler clause no
    terminator line), then a clean rest.  Neither [gap] nor the body nor
    the handler clause holds a [try do], nor does one form where they meet
    once the block-open line is out, or where the handler clause meets
    what is kept of the rest once the terminator is out. *)
Inductive clean : text -> text -> Prop :=
| clean_tail (tail : text) :
    contains (str "try do") tail = false ->
    clean tail tail
| clean_block (gap ws1 body ws2 kw h ws3 rest kept : text) :
    indentation ws1 -> indentation ws2 -> indentation ws3 ->
    is_handler_keyword kw ->
    no_match_in try_pattern gap
      (open_line ws1 ++ body ++ handler_clause ws2 kw h ++ end_line ws3
       ++ rest) = true ->
    no_match_in handler_head body
      (handler_clause ws2 kw h ++ end_line ws3 ++ rest) = true ->
    no_match_in end_clause_re h (end_line ws3 ++ rest) = true ->
    contains (str "try do") (gap ++ body ++ handler_clause ws2 kw h) = false ->
    clean rest kept ->
    straddles (str "try do") (gap ++ body ++ handler_clause ws2 kw h) kept
    = false ->
    clean
      (gap ++ open_line ws1 ++ body ++ handler_clause ws2 kw h
       ++ end_line ws3 ++ rest)
      (gap ++ body ++ handler_clause ws2 kw h ++ kept).


(** ** Further notions for the properties of the code *)

(** [(\s+)try do\n]: the start of [try_pattern], without its group. *)
Definition open_line_re : regex :=
  Cat (Plus is_space) (Lit (str "try do" ++ [nl])).

(** The text after [n] successive passes of the Rewriter. *)
Fixpoint rewrite_times (n : nat) (content : text) : text :=
  match n with
  | O => content
  | S n' => rewrite_times n' (fst (rewriter content))
  end.

(** The paths read, and the paths written, in the order of the trace. *)
Fixpoint read_paths (tr : list event) : list string :=
  match tr with
  | [] => []
  | EvRead path :: tr' => path :: read_paths tr'
  | EvWrite _ _ :: tr' => read_paths tr'
  end.

Fixpoint write_paths (tr : list event) : list string :=
  match tr with
  | [] => []
  | EvRead _ :: tr' => write_paths tr'
  | EvWrite path _ :: tr' => path :: write_paths tr'
  end.


(** A block whose handler clause stands right after the block-open line. *)
Definition empty_body_block : text :=
  unlines ["  try do"; "  rescue"; "    e -> e"; "  end"]%string.

(** * Properties of the matcher *)

(** Right-nest the concatenations and push the leading characters out. *)
Ltac norm_app := repeat (progress (cbn [app]; rewrite <- ?app_assoc)).

Section MatcherFacts.
Context {A : Type}.
Implicit Types (k : @cont A) (s m rest taken : text) (g : groups).

Lemma strip_prefix_spec p s rest :
  strip_prefix p s = Some rest <-> s = p ++ rest.
Proof.
  revert s. induction p as [|a p IH]; intros s; simpl.
  - split; [intros [= ->] | intros ->]; reflexivity.
  - destruct s as [|b s]; [split; [discriminate | intros [=]] |].
    destruct (N.eqb_spec a b) as [->|Hne].
    + rewrite IH. split; [intros -> | intros [= ->]]; reflexivity.
    + split; [discriminate | intros [= ? ?]; congruence].
Qed.

Lemma strip_prefix_app p rest : strip_prefix p (p ++ rest) = Some rest.
Proof. apply strip_prefix_spec. reflexivity. Qed.

(** *** Soundness: a successful run took a string of the pattern *)

Lemma greedy_star_sound cls taken s g k x :
  greedy_star cls taken s g k = Some x ->
  exists m rest,
    s = m ++ rest /\ forallb cls m = true /\ k (taken ++ m) rest g = Some x.
Proof.
  revert taken. induction s as [|c s IH]; intros taken; simpl.
  - intros H. exists [], []. rewrite !app_nil_r. auto.
  - destruct (cls c) eqn:Hc.
    + destruct (greedy_star cls (taken ++ [c]) s g k) eqn:Hg.
      * intros [= ->]. destruct (IH _ Hg) as (m & rest & -> & Hm & Hk).
        exists (c :: m), rest. simpl. rewrite Hc.
        rewrite <- app_assoc in Hk. auto.
      * intros H. exists [], (c :: s). rewrite !app_nil_r. auto.
    + intros H. exists [], (c :: s). rewrite !app_nil_r. auto.
Qed.

Lemma lazy_star_sound cls taken s g k x :
  lazy_star cls taken s g k = Some x ->
  exists m rest,
    s = m ++ rest /\ forallb cls m = true /\ k (taken ++ m) rest g = Some x.
Proof.
  revert taken. induction s as [|c s IH]; intros taken; simpl.
  - destruct (k taken [] g) eqn:Hk; [|discriminate].
    intros [= ->]. exists [], []. rewrite !app_nil_r. auto.
  - destruct (k taken (c :: s) g) eqn:Hk.
    + intros [= ->]. exists [], (c :: s). rewrite !app_nil_r. auto.
    + destruct (cls c) eqn:Hc; [|discriminate].
      intros H. destruct (IH _ H) as (m & rest & -> & Hm & Hk').
      exists (c :: m), rest. simpl. rewrite Hc.
      rewrite <- app_assoc in Hk'. auto.
Qed.

Lemma rmatch_sound r s g k x :
  rmatch r s g k = Some x ->
  exists m rest g',
    s = m ++ rest /\ in_lang r m g g' /\ k m rest g' = Some x.
Proof.
  revert s g k x.
  induction r as [p|cls|cls|r1 IH1 r2 IH2|r1 IH1 r2 IH2|n r IH];
    intros s g k x; simpl.
  - destruct (strip_prefix p s) as [rest|] eqn:Hp; [|discriminate].
    apply strip_prefix_spec in Hp. intros H. exists p, rest, g. auto.
  - destruct s as [|c s]; [discriminate|].
    destruct (cls c) eqn:Hc; [|discriminate].
    intros H. apply greedy_star_sound in H.
    destruct H as (m & rest & -> & Hm & Hk).
    exists (c :: m), rest, g. simpl. rewrite Hc. repeat split; auto.
  - intros H. apply lazy_star_sound in H.
    destruct H as (m & rest & -> & Hm & Hk). exists m, rest, g. auto.
  - destruct (rmatch r1 s g k) eqn:H1.
    + intros [= ->]. destruct (IH1 _ _ _ _ H1) as (m & rest & g' & ? & ? & ?).
      exists m, rest, g'. auto.
    + intros H2. destruct (IH2 _ _ _ _ H2) as (m & rest & g' & ? & ? & ?).
      exists m, rest, g'. auto.
  - intros H. destruct (IH1 _ _ _ _ H) as (m1 & s1 & g1 & -> & Hm1 & H').
    destruct (IH2 _ _ _ _ H') as (m2 & s2 & g2 & -> & Hm2 & Hk).
    exists (m1 ++ m2), s2, g2. rewrite <- app_assoc.
    repeat split; auto. exists m1, m2, g1. auto.
  - intros H. destruct (IH _ _ _ _ H) as (m & rest & g' & -> & Hm & Hk).
    exists m, rest, (set_group n m g'). repeat split; auto.
    exists g'. auto.
Qed.
End MatcherFacts.

(** *** Success does not depend on the groups or on the result *)

Section Monotone.
Context {A B : Type}.
Variables (k : @cont A) (k2 : @cont B).
Hypothesis k_k2 :
  forall m rest ga gb, is_Some (k m rest ga) -> is_Some (k2 m rest gb).

Lemma greedy_star_mono cls taken s g g2 :
  is_Some (greedy_star cls taken s g k) ->
  is_Some (greedy_star cls taken s g2 k2).
Proof using k_k2.
  revert taken. induction s as [|c s IH]; intros taken; simpl; eauto.
  destruct (cls c); eauto.
  destruct (greedy_star cls (taken ++ [c]) s g k) eqn:Hg.
  - intros _. destruct (IH (taken ++ [c])) as [y ->]; eauto.
  - intros Hk. destruct (greedy_star cls (taken ++ [c]) s g2 k2); eauto.
Qed.

Lemma lazy_star_mono cls taken s g g2 :
  is_Some (lazy_star cls taken s g k) ->
  is_Some (lazy_star cls taken s g2 k2).
Proof using k_k2.
  revert taken. induction s as [|c s IH]; intros taken; simpl.
  - destruct (k taken [] g) eqn:Hk; [|intros [? [=]]].
    intros _. destruct (k_k2 taken [] g g2) as [y ->]; eauto.
  - destruct (k taken (c :: s) g) eqn:Hk.
    + intros _. destruct (k_k2 taken (c :: s) g g2) as [y ->]; eauto.
    + destruct (k2 taken (c :: s) g2); eauto.
      destruct (cls c); [apply IH | intros [? [=]]].
Qed.
End Monotone.

Lemma rmatch_mono {A B : Type} r :
  forall s g g2 (k : @cont A) (k2 : @cont B),
    (forall m rest ga gb, is_Some (k m rest ga) -> is_Some (k2 m rest gb)) ->
    is_Some (rmatch r s g k) -> is_Some (rmatch r s g2 k2).
Proof.
  induction r as [p|cls|cls|r1 IH1 r2 IH2|r1 IH1 r2 IH2|n r IH];
    intros s g g2 k k2 Hk; simpl.
  - destruct (strip_prefix p s); [eauto | intros [? [=]]].
  - destruct s as [|c s]; [intros [? [=]]|].
    destruct (cls c); [|intros [? [=]]].
    apply greedy_star_mono; auto.
  - apply lazy_star_mono; auto.
  - destruct (rmatch r1 s g k) eqn:H1.
    + intros _. destruct (IH1 s g g2 k k2 Hk) as [y ->]; eauto.
    + intros H2. destruct (rmatch r1 s g2 k2); eauto.
  - apply IH1. intros m rest ga gb. apply IH2. intros; eauto.
  - apply IH. intros; eauto.
Qed.

(** Where the pattern matches nowhere, every run of it fails. *)
Lemma rmatch_no_match {A : Type} r s g (k : @cont A) :
  matches_at r s = false -> rmatch r s g k = None.
Proof.
  unfold matches_at, re_match. intros Hm.
  destruct (rmatch r s g k) eqn:Hr; [|reflexivity].
  destruct (rmatch_mono r s g no_groups k
              (fun m rest g => Some (MatchObj m g rest))) as [y Hy]; eauto.
  rewrite Hy in Hm. discriminate.
Qed.

Lemma no_match_in_split r pre post u v :
  no_match_in r pre post = true -> pre = u ++ v -> v <> [] ->
  matches_at r (v ++ post) = false.
Proof.
  revert pre. induction u as [|c u IH]; intros pre H -> Hv; simpl in *.
  - destruct v as [|c v]; [congruence|]. simpl in H.
    apply andb_true_iff in H as [H _]. apply negb_true_iff in H. exact H.
  - apply andb_true_iff in H as [_ H]. eapply IH; eauto.
Qed.

(** *** The order of the attempts *)

Section Priority.
Context {A : Type}.
Implicit Types (k : @cont A) (s m rest taken : text) (g : groups).

Lemma greedy_star_max cls ws rest taken g k x :
  forallb cls ws = true -> stops cls rest ->
  k (taken ++ ws) rest g = Some x ->
  greedy_star cls taken (ws ++ rest) g k = Some x.
Proof.
  revert taken. induction ws as [|c ws IH]; intros taken Hws Hrest; simpl.
  - rewrite app_nil_r. destruct rest as [|c rest]; simpl; auto.
    simpl in Hrest. rewrite Hrest. auto.
  - simpl in Hws. apply andb_true_iff in Hws as [-> Hws]. intros Hk.
    rewrite (IH (taken ++ [c])); auto. rewrite <- app_assoc. exact Hk.
Qed.

(** [X+] hands the whole run to its continuation first. *)
Lemma rmatch_plus_max cls ws rest g k x :
  ws <> [] -> forallb cls ws = true -> stops cls rest ->
  k ws rest g = Some x ->
  rmatch (Plus cls) (ws ++ rest) g k = Some x.
Proof.
  destruct ws as [|c ws]; [congruence|]. intros _ Hws Hrest Hk. simpl.
  simpl in Hws. apply andb_true_iff in Hws as [-> Hws].
  apply greedy_star_max; auto.
Qed.

Lemma rmatch_lit p rest g k : rmatch (Lit p) (p ++ rest) g k = k p rest g.
Proof. simpl. rewrite strip_prefix_app. reflexivity. Qed.

Lemma lazy_star_here cls taken s g k x :
  k taken s g = Some x -> lazy_star cls taken s g k = Some x.
Proof. intros H. destruct s; simpl; rewrite H; reflexivity. Qed.

(** [X*?] passes over every position where its continuation fails. *)
Lemma lazy_star_skip cls pre post taken g k :
  forallb cls pre = true ->
  (forall u v, pre = u ++ v -> v <> [] ->
               k (taken ++ u) (v ++ post) g = None) ->
  lazy_star cls taken (pre ++ post) g k
  = lazy_star cls (taken ++ pre) post g k.
Proof.
  revert taken. induction pre as [|c pre IH]; intros taken Hcls Hk.
  - rewrite app_nil_r. reflexivity.
  - simpl in Hcls. apply andb_true_iff in Hcls as [Hc Hcls]. simpl.
    assert (H0 := Hk [] (c :: pre) eq_refl ltac:(discriminate)).
    rewrite app_nil_r in H0. simpl in H0. rewrite H0.
    rewrite Hc, (IH (taken ++ [c])); auto.
    + rewrite <- app_assoc. reflexivity.
    + intros u v -> Hv. rewrite <- app_assoc. apply (Hk (c :: u) v); auto.
Qed.

Lemma forallb_dot_all m : forallb dot_all m = true.
Proof. induction m; simpl; auto. Qed.
End Priority.

(** * Properties of the pattern *)

Section Blocks.
Context {A : Type}.
Implicit Types (k : @cont A) (g : groups).

Lemma rmatch_cat r1 r2 s g k :
  rmatch (Cat r1 r2) s g k
  = rmatch r1 s g (fun m1 s1 g1 =>
      rmatch r2 s1 g1 (fun m2 s2 g2 => k (m1 ++ m2) s2 g2)).
Proof. reflexivity. Qed.

Lemma rmatch_group n r s g k :
  rmatch (Group n r) s g k
  = rmatch r s g (fun m s' g' => k m s' (set_group n m g')).
Proof. reflexivity. Qed.

Lemma rmatch_lazy_star cls s g k :
  rmatch (LazyStar cls) s g k = lazy_star cls [] s g k.
Proof. reflexivity. Qed.

Lemma handler_keyword_stops kw rest :
  is_handler_keyword kw -> stops is_space (kw ++ rest).
Proof. intros [-> | [-> | ->]]; reflexivity. Qed.

Lemma rmatch_handler_keyword kw rest g k x :
  is_handler_keyword kw -> k kw rest g = Some x ->
  rmatch handler_keyword (kw ++ rest) g k = Some x.
Proof. intros [-> | [-> | ->]] Hk; simpl; rewrite Hk; reflexivity. Qed.

(** [\n\s+(?:rescue|catch|after)] on a handler line. *)
Lemma rmatch_handler_head ws kw rest g k x :
  indentation ws -> is_handler_keyword kw ->
  k (nl :: ws ++ kw) rest g = Some x ->
  rmatch handler_head (nl :: ws ++ kw ++ rest) g k = Some x.
Proof.
  intros [Hne Hws] Hkw Hk. unfold handler_head.
  rewrite rmatch_cat. change (nl :: ws ++ kw ++ rest)
    with ([nl] ++ ws ++ kw ++ rest).
  rewrite rmatch_lit, rmatch_cat.
  apply rmatch_plus_max; [exact Hne | exact Hws | |].
  - apply handler_keyword_stops, Hkw.
  - apply rmatch_handler_keyword; auto.
Qed.

(** [\n\s+end] on a terminator line. *)
Lemma rmatch_end_clause ws rest g k x :
  indentation ws ->
  k (end_line ws) rest g = Some x ->
  rmatch end_clause_re (end_line ws ++ rest) g k = Some x.
Proof.
  intros [Hne Hws] Hk. unfold end_clause_re, end_line in *.
  rewrite rmatch_cat. change ((nl :: ws ++ str "end") ++ rest)
    with ([nl] ++ (ws ++ str "end") ++ rest).
  rewrite rmatch_lit, rmatch_cat, <- app_assoc.
  apply rmatch_plus_max; [exact Hne | exact Hws | reflexivity |].
  rewrite rmatch_lit. exact Hk.
Qed.
End Blocks.

Lemma handler_clause_app ws kw h rest :
  handler_clause ws kw h ++ rest = nl :: ws ++ kw ++ h ++ rest.
Proof. unfold handler_clause. simpl. rewrite <- !app_assoc. reflexivity. Qed.

(** A block whose body holds no handler line and whose handler clause holds
    no terminator line is matched as a whole, group by group. *)
Lemma re_match_block ws1 body ws2 kw h ws3 rest :
  indentation ws1 -> indentation ws2 -> indentation ws3 ->
  is_handler_keyword kw ->
  no_match_in handler_head body
    (handler_clause ws2 kw h ++ end_line ws3 ++ rest) = true ->
  no_match_in end_clause_re h (end_line ws3 ++ rest) = true ->
  re_match try_pattern
    (open_line ws1 ++ body ++ handler_clause ws2 kw h ++ end_line ws3 ++ rest)
  = Some (MatchObj
            (open_line ws1 ++ body ++ handler_clause ws2 kw h ++ end_line ws3)
            (block_groups ws1 body (handler_clause ws2 kw h) (end_line ws3))
            rest).
Proof.
  intros [Hne1 Hws1] Hi2 Hi3 Hkw Hbody Hh.
  unfold re_match, try_pattern, open_line.
  rewrite rmatch_cat, rmatch_group.
  rewrite <- !app_assoc.
  apply rmatch_plus_max; [exact Hne1 | exact Hws1 | reflexivity |].
  rewrite rmatch_cat. rewrite (app_assoc (str "try do") [nl]).
  rewrite rmatch_lit, rmatch_cat, rmatch_group, rmatch_lazy_star.
  rewrite lazy_star_skip; [|apply forallb_dot_all|].
  2:{ intros u v Hsplit Hv. rewrite rmatch_cat, rmatch_group, rmatch_cat.
      apply rmatch_no_match. eapply no_match_in_split; eauto. }
  apply lazy_star_here.
  rewrite rmatch_cat, rmatch_group, rmatch_cat.
  rewrite handler_clause_app. apply rmatch_handler_head; auto.
  rewrite rmatch_lazy_star, lazy_star_skip; [|apply forallb_dot_all|].
  2:{ intros u v Hsplit Hv. rewrite rmatch_group.
      apply rmatch_no_match. eapply no_match_in_split; eauto. }
  apply lazy_star_here. rewrite rmatch_group.
  apply rmatch_end_clause; auto.
  unfold block_groups, handler_clause. simpl. rewrite <- !app_assoc.
  reflexivity.
Qed.

(** Every match of [try_pattern] is a block-open line, a body, a handler
    clause and a terminator, each in its group. *)
Lemma try_pattern_lang span g' :
  in_lang try_pattern span no_groups g' ->
  exists ws1 body ws2 kw h ws3,
    indentation ws1 /\ indentation ws2 /\ indentation ws3 /\
    is_handler_keyword kw /\
    span = open_line ws1 ++ body ++ handler_clause ws2 kw h ++ end_line ws3 /\
    g' = block_groups ws1 body (handler_clause ws2 kw h) (end_line ws3).
Proof.
  unfold try_pattern, handler_head, end_clause_re, handler_keyword.
  cbn [in_lang].
  intros (m1 & m2 & g1 & -> & (g0 & (Hne1 & Hws1 & ->) & ->) & H).
  destruct H as (m3 & m4 & g2 & -> & (-> & ->) & H).
  destruct H as (body & m5 & g3 & -> & (g4 & (_ & ->) & ->) & H).
  destruct H as (m6 & m7 & g5 & -> & (g6 & H3 & ->) & (g7 & H4 & ->)).
  destruct H3 as (hh & h & g8 & -> & Hhh & (_ & ->)).
  destruct Hhh as (n1 & m8 & g9 & -> & (-> & ->) & H).
  destruct H as (ws2 & kw & g10 & -> & (Hne2 & Hws2 & ->) & Hkw).
  destruct H4 as (n2 & m9 & g11 & -> & (-> & ->) & H).
  destruct H as (ws3 & e & g12 & -> & (Hne3 & Hws3 & ->) & (-> & ->)).
  assert (Hkw' : is_handler_keyword kw
                 /\ g8 = set_group 2 body (set_group 1 m1 no_groups)).
  { unfold is_handler_keyword.
    destruct Hkw as [[-> ->] | [[-> ->] | [-> ->]]]; auto. }
  destruct Hkw' as [Hkw' ->].
  exists m1, body, ws2, kw, h, ws3. unfold indentation.
  repeat split; auto.
  - unfold open_line, handler_clause, end_line. norm_app. reflexivity.
  - unfold block_groups, handler_clause, end_line. norm_app. reflexivity.
Qed.

(** * Properties of the substitution *)

Lemma re_match_sound r s m :
  re_match r s = Some m ->
  s = m_span m ++ m_rest m /\ in_lang r (m_span m) no_groups (m_groups m).
Proof.
  unfold re_match. intros H.
  apply rmatch_sound in H as (sp & rest & g' & -> & Hl & [= <-]). auto.
Qed.

Lemma sub_from_skip r repl span rest :
  sub_from r repl (length span) (span ++ rest) = sub_from r repl 0 rest.
Proof. induction span as [|c span IH]; simpl; auto. Qed.

(** At a match the replacement is emitted and the scan resumes after the
    matched span. *)
Lemma re_sub_match r repl s m :
  re_match r s = Some m -> m_span m <> [] ->
  re_sub r repl s = repl m ++ re_sub r repl (m_rest m).
Proof.
  intros Hm Hne. destruct (re_match_sound _ _ _ Hm) as [Hs _].
  destruct (m_span m) as [|c span] eqn:Hspan; [congruence|].
  unfold re_sub. rewrite Hs in Hm |- *. simpl in Hm |- *. rewrite Hm, Hspan.
  simpl. rewrite Nat.sub_0_r, sub_from_skip. reflexivity.
Qed.

Lemma re_sub_no_match r repl c s :
  re_match r (c :: s) = None ->
  re_sub r repl (c :: s) = c :: re_sub r repl s.
Proof. intros Hm. unfold re_sub. simpl. rewrite Hm. reflexivity. Qed.

(** A stretch of text in which the pattern matches nowhere is copied. *)
Lemma re_sub_prefix r repl pre post :
  no_match_in r pre post = true ->
  re_sub r repl (pre ++ post) = pre ++ re_sub r repl post.
Proof.
  induction pre as [|c pre IH]; simpl; [reflexivity|].
  intros H. apply andb_true_iff in H as [H1 H2].
  apply negb_true_iff in H1. unfold matches_at in H1.
  destruct (re_match r (c :: pre ++ post)) eqn:Hm; [discriminate|].
  rewrite re_sub_no_match, IH; auto.
Qed.

Lemma re_sub_unmatched r repl s :
  no_match_in r s [] = true -> re_sub r repl s = s.
Proof.
  intros H. rewrite <- (app_nil_r s) at 1.
  rewrite re_sub_prefix; auto. apply app_nil_r.
Qed.

(** What [re.sub] does with a match of [try_pattern]. *)
Lemma try_pattern_match s m :
  re_match try_pattern s = Some m ->
  exists ws1 body ws2 kw h ws3,
    indentation ws1 /\ indentation ws2 /\ indentation ws3 /\
    is_handler_keyword kw /\
    s = open_line ws1 ++ body ++ handler_clause ws2 kw h ++ end_line ws3
        ++ m_rest m /\
    m_span m = open_line ws1 ++ body ++ handler_clause ws2 kw h ++ end_line ws3 /\
    replace_try_block m = body ++ handler_clause ws2 kw h.
Proof.
  intros Hm. destruct (re_match_sound _ _ _ Hm) as [Hs Hl].
  destruct (try_pattern_lang _ _ Hl)
    as (ws1 & body & ws2 & kw & h & ws3 & H1 & H2 & H3 & Hkw & Hspan & Hg).
  exists ws1, body, ws2, kw, h, ws3.
  do 4 (split; [assumption|]). split; [|split; [assumption|]].
  - rewrite Hs, Hspan, <- !app_assoc. reflexivity.
  - unfold replace_try_block, group. rewrite Hg. reflexivity.
Qed.

Lemma contains_app needle a b : contains needle (a ++ needle ++ b) = true.
Proof.
  induction a as [|c a IH]; simpl.
  - destruct (needle ++ b) eqn:E; simpl; rewrite <- E, strip_prefix_app;
      reflexivity.
  - destruct (strip_prefix needle (c :: a ++ needle ++ b)); auto.
Qed.

Lemma contains_tail needle c s :
  contains needle (c :: s) = false -> contains needle s = false.
Proof. simpl. destruct (strip_prefix needle (c :: s)); auto; discriminate. Qed.

(** A match of [try_pattern] starts with whitespace and [try do]. *)
Lemma matches_at_try_do s :
  matches_at try_pattern s = true -> contains (str "try do") s = true.
Proof.
  unfold matches_at. destruct (re_match try_pattern s) as [m|] eqn:Hm;
    [intros _|discriminate].
  destruct (try_pattern_match _ _ Hm)
    as (ws1 & body & ws2 & kw & h & ws3 & _ & _ & _ & _ & -> & _).
  unfold open_line. rewrite <- !app_assoc. apply contains_app.
Qed.

Lemma no_try_do_no_match pre post :
  contains (str "try do") (pre ++ post) = false ->
  no_match_in try_pattern pre post = true.
Proof.
  induction pre as [|c pre IH]; intros H; simpl; [reflexivity|].
  apply andb_true_iff. split.
  - apply negb_true_iff.
    destruct (matches_at try_pattern (c :: pre ++ post)) eqn:E; auto.
    apply matches_at_try_do in E. simpl in H, E. congruence.
  - apply IH. eapply contains_tail. exact H.
Qed.

Lemma open_line_length ws : length (open_line ws) = (length ws + 7)%nat.
Proof. unfold open_line. rewrite length_app. reflexivity. Qed.

Lemma end_line_length ws : length (end_line ws) = (length ws + 4)%nat.
Proof. unfold end_line. simpl. rewrite length_app. simpl. lia. Qed.

(** A match is never empty, and its replacement is shorter than it. *)
Lemma replace_try_block_shorter s m :
  re_match try_pattern s = Some m ->
  (length (replace_try_block m) < length (m_span m))%nat.
Proof.
  intros Hm. destruct (try_pattern_match _ _ Hm)
    as (ws1 & body & ws2 & kw & h & ws3 & _ & _ & _ & _ & _ & -> & ->).
  rewrite !length_app, open_line_length, end_line_length. lia.
Qed.

Lemma try_pattern_nonempty s m :
  re_match try_pattern s = Some m -> m_span m <> [].
Proof.
  intros Hm Hnil. apply replace_try_block_shorter in Hm.
  rewrite Hnil in Hm. simpl in Hm. lia.
Qed.

Lemma rewrite_length s :
  (length (re_sub try_pattern replace_try_block s) <= length s)%nat.
Proof.
  assert (Hle : (length s <= length s)%nat) by lia.
  revert Hle. generalize (length s) at 2 as n. intros n. revert s.
  induction n as [|n IH]; intros s Hle.
  - destruct s; simpl in *; [auto|lia].
  - destruct s as [|c s]; [simpl; lia|].
    destruct (re_match try_pattern (c :: s)) as [m|] eqn:Hm.
    + rewrite (re_sub_match _ _ _ _ Hm (try_pattern_nonempty _ _ Hm)).
      pose proof (replace_try_block_shorter _ _ Hm) as Hlt.
      destruct (re_match_sound _ _ _ Hm) as [Hs _].
      apply (f_equal (@length _)) in Hs. rewrite length_app in Hs.
      simpl in Hs, Hle. rewrite length_app.
      assert (Hr : (length (m_rest m) <= n)%nat) by lia.
      specialize (IH _ Hr). simpl. lia.
    + rewrite (re_sub_no_match _ _ _ _ Hm). simpl in *.
      assert (Hr : (length s <= n)%nat) by lia.
      specialize (IH _ Hr). lia.
Qed.

(** A text in which the pattern matches somewhere comes out shorter. *)
Lemma rewrite_shrinks s :
  no_match_in try_pattern s [] = false ->
  (length (re_sub try_pattern replace_try_block s) < length s)%nat.
Proof.
  induction s as [|c s IH]; simpl; [discriminate|].
  rewrite app_nil_r. unfold matches_at.
  destruct (re_match try_pattern (c :: s)) as [m|] eqn:Hm; simpl.
  - intros _.
    rewrite (re_sub_match _ _ _ _ Hm (try_pattern_nonempty _ _ Hm)).
    pose proof (replace_try_block_shorter _ _ Hm) as Hlt.
    destruct (re_match_sound _ _ _ Hm) as [Hs _].
    apply (f_equal (@length _)) in Hs. rewrite length_app in Hs.
    simpl in Hs. rewrite length_app.
    pose proof (rewrite_length (m_rest m)). lia.
  - intros H. rewrite (re_sub_no_match _ _ _ _ Hm). simpl.
    specialize (IH H). lia.
Qed.

Lemma rewriter_unmatched s :
  no_match_in try_pattern s [] = true -> rewriter s = (s, false).
Proof.
  intros H. unfold rewriter. rewrite re_sub_unmatched by exact H.
  rewrite bool_decide_eq_false_2; auto.
Qed.

Lemma rewriter_no_marker s :
  contains (str "try do") s = false -> rewriter s = (s, false).
Proof.
  intros H. apply rewriter_unmatched, no_try_do_no_match.
  rewrite app_nil_r. exact H.
Qed.

Lemma replace_try_block_groups span g1 g2 g3 g4 rest :
  replace_try_block (MatchObj span (block_groups g1 g2 g3 g4) rest) = g2 ++ g3.
Proof. reflexivity. Qed.

(** The rewrite of a text that starts with a block whose body holds no
    handler line and whose handler clause holds no terminator line. *)
Lemma rewriter_block ws1 body ws2 kw h ws3 rest :
  indentation ws1 -> indentation ws2 -> indentation ws3 ->
  is_handler_keyword kw ->
  no_match_in handler_head body
    (handler_clause ws2 kw h ++ end_line ws3 ++ rest) = true ->
  no_match_in end_clause_re h (end_line ws3 ++ rest) = true ->
  rewriter
    (open_line ws1 ++ body ++ handler_clause ws2 kw h ++ end_line ws3 ++ rest)
  = (body ++ handler_clause ws2 kw h ++ fst (rewriter rest), true).
Proof.
  intros H1 H2 H3 Hkw Hbody Hh.
  pose proof (re_match_block _ _ _ _ _ _ rest H1 H2 H3 Hkw Hbody Hh) as Hm.
  unfold rewriter.
  rewrite (re_sub_match _ _ _ _ Hm (try_pattern_nonempty _ _ Hm)).
  cbn [m_rest fst]. rewrite replace_try_block_groups.
  rewrite <- app_assoc. f_equal. apply bool_decide_eq_true_2.
  intros E. apply (f_equal (@length _)) in E.
  rewrite !length_app, open_line_length, end_line_length in E.
  pose proof (rewrite_length rest). lia.
Qed.

Lemma matches_at_handler_clause ws kw h rest :
  indentation ws -> is_handler_keyword kw ->
  matches_at handler_head (handler_clause ws kw h ++ rest) = true.
Proof.
  intros Hws Hkw. unfold matches_at, re_match.
  rewrite handler_clause_app.
  erewrite rmatch_handler_head; eauto.
Qed.

Lemma matches_at_end_line ws rest :
  indentation ws -> matches_at end_clause_re (end_line ws ++ rest) = true.
Proof.
  intros Hws. unfold matches_at, re_match.
  erewrite rmatch_end_clause; eauto.
Qed.

(** A match of [try_pattern] holds a handler line, and a terminator line. *)
Lemma try_match_has_handler s :
  matches_at try_pattern s = true ->
  exists u v, s = u ++ v /\ v <> [] /\ matches_at handler_head v = true.
Proof.
  unfold matches_at at 1.
  destruct (re_match try_pattern s) as [m|] eqn:Hm; [intros _|discriminate].
  destruct (try_pattern_match _ _ Hm)
    as (ws1 & body & ws2 & kw & h & ws3 & _ & H2 & _ & Hkw & -> & _).
  exists (open_line ws1 ++ body),
         (handler_clause ws2 kw h ++ end_line ws3 ++ m_rest m).
  rewrite <- app_assoc. repeat split.
  - discriminate.
  - apply matches_at_handler_clause; assumption.
Qed.

Lemma try_match_has_end s :
  matches_at try_pattern s = true ->
  exists u v, s = u ++ v /\ v <> [] /\ matches_at end_clause_re v = true.
Proof.
  unfold matches_at at 1.
  destruct (re_match try_pattern s) as [m|] eqn:Hm; [intros _|discriminate].
  destruct (try_pattern_match _ _ Hm)
    as (ws1 & body & ws2 & kw & h & ws3 & _ & _ & H3 & _ & -> & _).
  exists (open_line ws1 ++ body ++ handler_clause ws2 kw h),
         (end_line ws3 ++ m_rest m).
  rewrite <- !app_assoc. repeat split.
  - discriminate.
  - apply matches_at_end_line; assumption.
Qed.

(** Where a part of the pattern matches nowhere, the pattern does not. *)
Lemma no_part_no_match r :
  (forall s, matches_at try_pattern s = true ->
             exists u v, s = u ++ v /\ v <> [] /\ matches_at r v = true) ->
  forall content pre0,
    no_match_in r (pre0 ++ content) [] = true ->
    no_match_in try_pattern content [] = true.
Proof.
  intros Hpart. induction content as [|c content IH]; intros pre0 H;
    [reflexivity|].
  simpl. apply andb_true_iff. split.
  - apply negb_true_iff. rewrite app_nil_r.
    destruct (matches_at try_pattern (c :: content)) eqn:E; [|reflexivity].
    destruct (Hpart _ E) as (u & v & Huv & Hv & Hr).
    assert (Hnone : matches_at r (v ++ []) = false).
    { eapply (no_match_in_split r _ [] (pre0 ++ u) v); eauto.
      rewrite Huv, app_assoc. reflexivity. }
    rewrite app_nil_r in Hnone. congruence.
  - apply (IH (pre0 ++ [c])). rewrite <- app_assoc. exact H.
Qed.

(** * The claims on the Rewriter *)

(** C2 (single-block rewrite).  The five-line text of the specification,
    whose first line is the block-open line, is rewritten to the three
    lines between the block-open line and the terminator, with
    changed = true; so it is when the text ends with a newline. *)
Theorem C2_single_block :
  rewriter (unlines ["    try do"; "      do_work()"; "    rescue";
                     "      e -> handle(e)"; "    end"]%string)
  = (unlines ["      do_work()"; "    rescue";
              "      e -> handle(e)"]%string, true)
  /\ rewriter (unlines ["    try do"; "      do_work()"; "    rescue";
                        "      e -> handle(e)"; "    end"; EmptyString])
     = (unlines ["      do_work()"; "    rescue";
                 "      e -> handle(e)"; EmptyString], true).
Proof. split; vm_compute; reflexivity. Qed.

(** C9 (no-op preservation).  A text with no occurrence of the block-open
    marker [try do] comes back as it is, with changed = false. *)
Theorem C9_no_marker_no_change (content : text) :
  contains (str "try do") content = false ->
  rewriter content = (content, false).
Proof. apply rewriter_no_marker. Qed.

Lemma C9_no_marker_no_change_witness :
  contains (str "try do")
    (unlines ["def run do"; "  assert try_it() == :ok"; "end"]%string) = false
  /\ rewriter (unlines ["def run do"; "  assert try_it() == :ok"; "end"]%string)
     = (unlines ["def run do"; "  assert try_it() == :ok"; "end"]%string, false).
Proof.
  split; [reflexivity | apply C9_no_marker_no_change; reflexivity].
Defined.

(** C1 (only the two marker lines go, the rest stays).  The code does not
    keep the newline that ends the line before the block-open line: group 1,
    [\s+], takes it with the indentation and the replacement drops group 1.
    On a block that follows the line [def f do], the first line of the body
    is joined to that line. *)
Theorem C1_preceding_newline_deleted :
  rewriter block_in_function
  = (unlines ["def f do      x()"; "    rescue"; "      e -> e";
              "end"]%string, true).
Proof. vm_compute. reflexivity. Qed.

Lemma contains_complete needle s :
  contains needle s = true -> exists x y, s = x ++ needle ++ y.
Proof.
  induction s as [|c s IH]; simpl.
  - destruct (strip_prefix needle []) as [rest|] eqn:E; [|discriminate].
    intros _. apply strip_prefix_spec in E. exists [], rest. exact E.
  - destruct (strip_prefix needle (c :: s)) as [rest|] eqn:E.
    + intros _. apply strip_prefix_spec in E. exists [], rest. exact E.
    + intros H. destruct (IH H) as (x & y & ->). exists (c :: x), y.
      reflexivity.
Qed.

Lemma starts_with_app p s : starts_with p (p ++ s) = true.
Proof. unfold starts_with. rewrite strip_prefix_app. reflexivity. Qed.

Lemma ends_with_app p s : ends_with p (s ++ p) = true.
Proof. unfold ends_with. rewrite rev_app_distr. apply starts_with_app. Qed.

(** A needle that is in neither of two texts and does not lie across the
    cut between them is not in the two put together. *)
Lemma contains_join needle a b :
  contains needle a = false -> contains needle b = false ->
  straddles needle a b = false ->
  contains needle (a ++ b) = false.
Proof.
  intros Ha Hb Hs. destruct (contains needle (a ++ b)) eqn:E; [|reflexivity].
  apply contains_complete in E as (x & y & E).
  apply app_eq_app in E as [l [[-> E] | [-> ->]]].
  - apply app_eq_app in E as [l' [[-> ->] | [-> ->]]].
    + destruct l as [|c l].
      { pose proof (contains_app l' [] y) as Hc. cbn [app] in Hc, Hb.
        congruence. }
      destruct l' as [|c' l'].
      { rewrite app_nil_r in Ha.
        rewrite <- (app_nil_r (x ++ c :: l)), <- app_assoc, contains_app in Ha.
        discriminate. }
      assert (Hk : straddles ((c :: l) ++ c' :: l') (x ++ c :: l)
                     ((c' :: l') ++ y) = true).
      { unfold straddles. apply existsb_exists. exists (length (c :: l)).
        split.
        - apply in_seq. rewrite length_app. simpl. lia.
        - rewrite take_app_length, drop_app_length, ends_with_app,
            starts_with_app. reflexivity. }
      congruence.
    + rewrite contains_app in Ha. discriminate.
  - rewrite contains_app in Hb. discriminate.
Qed.

(** A text made of blocks that do not nest is rewritten to what is kept
    of it, and that holds no [try do]. *)
Lemma clean_rewrite input kept :
  clean input kept ->
  fst (rewriter input) = kept /\ contains (str "try do") kept = false.
Proof.
  induction 1
    as [tail Htail
       |gap ws1 body ws2 kw h ws3 rest kept H1 H2 H3 Hkw Hgap Hbody Hh
          Hpieces Hrest [IHout IHkept] Hcut].
  - rewrite (rewriter_no_marker _ Htail). auto.
  - split.
    + unfold rewriter. cbn [fst]. rewrite (re_sub_prefix _ _ _ _ Hgap).
      change (gap ++ fst (rewriter
                            (open_line ws1 ++ body ++ handler_clause ws2 kw h
                             ++ end_line ws3 ++ rest))
              = gap ++ body ++ handler_clause ws2 kw h ++ kept).
      rewrite rewriter_block by assumption. cbn [fst]. rewrite IHout.
      reflexivity.
    + rewrite !app_assoc. rewrite <- (app_assoc gap).
      apply contains_join; assumption.
Qed.

(** C3 (idempotence), amended.  For every input text made of blocks that
    do not nest - stretches in which the pattern does not match, between
    blocks that the pattern matches whole, with no [try do] in the
    stretches, the bodies and the handler clauses, and none forming where
    a block-open line or a terminator is taken out - the Rewriter returns
    the text without the block-open lines and terminators, that output
    holds no [try do], and a second application returns the same output
    with changed = false. *)
Theorem C3_clean_text_idempotent (input kept : text) :
  clean input kept ->
  fst (rewriter input) = kept
  /\ contains (str "try do") (fst (rewriter input)) = false
  /\ rewriter (fst (rewriter input)) = (fst (rewriter input), false).
Proof.
  intros Hclean. destruct (clean_rewrite _ _ Hclean) as [-> Hkept].
  split; [reflexivity|]. split; [exact Hkept|].
  apply rewriter_no_marker, Hkept.
Qed.

Lemma C3_clean_text_idempotent_witness :
  fst (rewriter
         (str "def f do"
          ++ open_line (nl :: str "  ") ++ str "    a()"
          ++ handler_clause (str "  ") (str "rescue")
               (nl :: str "    e -> 1")
          ++ end_line (str "  ")
          ++ (nl :: str "  mid()")
          ++ open_line (nl :: str "  ") ++ str "    b()"
          ++ handler_clause (str "  ") (str "after") (nl :: str "    c()")
          ++ end_line (str "  ") ++ nl :: str "end"))
  = str "def f do"
    ++ str "    a()"
    ++ handler_clause (str "  ") (str "rescue") (nl :: str "    e -> 1")
    ++ (nl :: str "  mid()")
    ++ str "    b()"
    ++ handler_clause (str "  ") (str "after") (nl :: str "    c()")
    ++ nl :: str "end"
  /\ contains (str "try do")
       (fst (rewriter
               (str "def f do"
                ++ open_line (nl :: str "  ") ++ str "    a()"
                ++ handler_clause (str "  ") (str "rescue")
                     (nl :: str "    e -> 1")
                ++ end_line (str "  ")
                ++ (nl :: str "  mid()")
                ++ open_line (nl :: str "  ") ++ str "    b()"
                ++ handler_clause (str "  ") (str "after")
                     (nl :: str "    c()")
                ++ end_line (str "  ") ++ nl :: str "end"))) = false
  /\ rewriter
       (fst (rewriter
               (str "def f do"
                ++ open_line (nl :: str "  ") ++ str "    a()"
                ++ handler_clause (str "  ") (str "rescue")
                     (nl :: str "    e -> 1")
                ++ end_line (str "  ")
                ++ (nl :: str "  mid()")
                ++ open_line (nl :: str "  ") ++ str "    b()"
                ++ handler_clause (str "  ") (str "after")
                     (nl :: str "    c()")
                ++ end_line (str "  ") ++ nl :: str "end")))
     = (fst (rewriter
               (str "def f do"
                ++ open_line (nl :: str "  ") ++ str "    a()"
                ++ handler_clause (str "  ") (str "rescue")
                     (nl :: str "    e -> 1")
                ++ end_line (str "  ")
                ++ (nl :: str "  mid()")
                ++ open_line (nl :: str "  ") ++ str "    b()"
                ++ handler_clause (str "  ") (str "after")
                     (nl :: str "    c()")
                ++ end_line (str "  ") ++ nl :: str "end")), false).
Proof.
  apply C3_clean_text_idempotent.
  apply (clean_block (str "def f do") (nl :: str "  ") (str "    a()")
           (str "  ") (str "rescue") (nl :: str "    e -> 1") (str "  "));
    unfold indentation, is_handler_keyword;
    try (split; [discriminate | reflexivity]); auto; try reflexivity.
  apply (clean_block (nl :: str "  mid()") (nl :: str "  ") (str "    b()")
           (str "  ") (str "after") (nl :: str "    c()") (str "  ")
           (nl :: str "end") (nl :: str "end"));
    unfold indentation, is_handler_keyword;
    try (split; [discriminate | reflexivity]); auto; try reflexivity.
  apply clean_tail. reflexivity.
Defined.

(** C3 as stated fails: the output for a nested block still holds a block,
    and the second application rewrites it. *)
Lemma C3_nested_not_idempotent :
  rewriter (fst (rewriter nested_blocks))
  <> (fst (rewriter nested_blocks), false).
Proof. vm_compute. discriminate. Qed.




(** C5 (indentation), amended.  The pattern does not compare indentations:
    a block is matched whatever non-empty runs of whitespace stand before
    its block-open marker, its handler keyword and its terminator, and the
    rewrite keeps the body and the handler clause.  A text is left as it is
    when no handler keyword, or no [end], in it stands after a newline and
    at least one whitespace character. *)
Theorem C5_indentation_not_compared :
  (forall ws1 body ws2 kw h ws3 rest : text,
      indentation ws1 -> indentation ws2 -> indentation ws3 ->
      is_handler_keyword kw ->
      no_match_in handler_head body
        (handler_clause ws2 kw h ++ end_line ws3 ++ rest) = true ->
      no_match_in end_clause_re h (end_line ws3 ++ rest) = true ->
      rewriter
        (open_line ws1 ++ body ++ handler_clause ws2 kw h ++ end_line ws3
         ++ rest)
      = (body ++ handler_clause ws2 kw h ++ fst (rewriter rest), true))
  /\ (forall content : text,
         no_match_in handler_head content [] = true
         \/ no_match_in end_clause_re content [] = true ->
         rewriter content = (content, false)).
Proof.
  split; [apply rewriter_block|].
  intros content [H | H]; apply rewriter_unmatched.
  - apply (no_part_no_match handler_head try_match_has_handler content []), H.
  - apply (no_part_no_match end_clause_re try_match_has_end content []), H.
Qed.

Lemma C5_indentation_not_compared_witness :
  rewriter
    (open_line (str "  ") ++ str "    x"
     ++ handler_clause (str "          ") (str "rescue")
          (nl :: str "      e -> e")
     ++ end_line (str " ") ++ [nl])
  = (str "    x"
     ++ handler_clause (str "          ") (str "rescue")
          (nl :: str "      e -> e")
     ++ [nl], true)
  /\ rewriter (unlines ["  try do"; "    x"; "rescue"; "    e -> e";
                        "  end"]%string)
     = (unlines ["  try do"; "    x"; "rescue"; "    e -> e";
                 "  end"]%string, false).
Proof.
  split.
  - apply (proj1 C5_indentation_not_compared
             (str "  ") (str "    x") (str "          ") (str "rescue")
             (nl :: str "      e -> e") (str " ") [nl]);
      unfold indentation, is_handler_keyword;
      try (split; [discriminate | reflexivity]); auto; reflexivity.
  - apply (proj2 C5_indentation_not_compared). left. reflexivity.
Defined.

(** C5 as stated fails: a handler clause indented deeper than the
    block-open line, or a terminator indented deeper than it, is matched
    like any other, and the block is rewritten. *)
Lemma C5_deeper_indentation_matched :
  rewriter handler_indented_deeper
  = (unlines ["    x"; "          rescue"; "      e -> e"]%string, true)
  /\ rewriter terminator_indented_deeper
     = (unlines ["    x"; "  rescue"; "    e -> e"]%string, true).
Proof. split; vm_compute; reflexivity. Qed.

(** C10 (no word boundary).  After the indentation of a line, the
    characters of a handler keyword end the body capture whatever follows
    them on the line, and the characters [end] are the terminator whatever
    follows them: [content] and [tail] are any texts, such as the rest of
    the words [rescued] and [endpoint]. *)
Theorem C10_bare_prefixes (ws1 body ws2 kw content ws3 tail : text) :
  indentation ws1 -> indentation ws2 -> indentation ws3 ->
  is_handler_keyword kw ->
  no_match_in handler_head body
    (nl :: ws2 ++ kw ++ content ++ nl :: ws3 ++ str "end" ++ tail) = true ->
  no_match_in end_clause_re content
    (nl :: ws3 ++ str "end" ++ tail) = true ->
  exists m,
    re_match try_pattern
      (ws1 ++ str "try do" ++ nl :: body
       ++ nl :: ws2 ++ kw ++ content ++ nl :: ws3 ++ str "end" ++ tail)
    = Some m
    /\ group m 2 = body
    /\ group m 3 = nl :: ws2 ++ kw ++ content
    /\ group m 4 = nl :: ws3 ++ str "end"
    /\ m_rest m = tail.
Proof.
  intros H1 H2 H3 Hkw Hbody Hcontent.
  pose proof (re_match_block ws1 body ws2 kw content ws3 tail H1 H2 H3 Hkw)
    as Hm.
  unfold open_line, handler_clause, end_line in Hm.
  revert Hm Hbody Hcontent. norm_app. intros Hm Hbody Hcontent.
  eexists. split; [apply Hm; assumption|]. repeat split.
Qed.

Lemma C10_bare_prefixes_witness :
  exists m,
    re_match try_pattern
      (str "  " ++ str "try do" ++ nl :: str "    a = 1"
       ++ nl :: str "    " ++ str "rescue" ++ str "d = load()"
       ++ nl :: str "    " ++ str "end" ++ str "point = 2")
    = Some m
    /\ group m 2 = str "    a = 1"
    /\ group m 3 = nl :: str "    " ++ str "rescue" ++ str "d = load()"
    /\ group m 4 = nl :: str "    " ++ str "end"
    /\ m_rest m = str "point = 2".
Proof.
  apply C10_bare_prefixes; unfold indentation, is_handler_keyword;
    try (split; [discriminate | reflexivity]); auto; reflexivity.
Defined.

(** * The driver *)

(** [convert_try_blocks] on a file that exists: one read, and one write of
    the whole new content when it differs from the content read. *)
Lemma convert_try_blocks_run path w content :
  files w !! path = Some content ->
  convert_try_blocks path w
  = inr (snd (rewriter content),
         if snd (rewriter content)
         then World (<[path := fst (rewriter content)]> (files w))
                    (trace w ++ [EvRead path;
                                 EvWrite path (fst (rewriter content))])
                    (stdout w) (blocked w)
         else World (files w) (trace w ++ [EvRead path]) (stdout w) (blocked w)).
Proof.
  intros Hf. unfold convert_try_blocks, bind, read_file. rewrite Hf.
  unfold rewriter. cbn [fst snd].
  destruct (bool_decide _); unfold bind, write_file, ret; cbn;
    rewrite <- ?app_assoc; reflexivity.
Qed.

Lemma convert_try_blocks_missing path w :
  files w !! path = None -> blocked w !! path = None ->
  convert_try_blocks path w = inl (FileNotFoundError path).
Proof.
  intros Hf Hb. unfold convert_try_blocks, bind, read_file. rewrite Hf, Hb.
  reflexivity.
Qed.




























Lemma write_paths_elem path tr :
  path ∈ write_paths tr <-> exists content, EvWrite path content ∈ tr.
Proof.
  induction tr as [|[q|q c] tr IH]; cbn [write_paths].
  - split; [intros H|intros [c H]]; exfalso; eapply not_elem_of_nil, H.
  - rewrite IH. split; intros [c H]; exists c.
    + apply elem_of_cons. right. exact H.
    + apply elem_of_cons in H as [[=] | H]. exact H.
  - rewrite elem_of_cons, IH. split.
    + intros [-> | [c' H]].
      * exists c. apply elem_of_cons. left. reflexivity.
      * exists c'. apply elem_of_cons. right. exact H.
    + intros [c' H]. apply elem_of_cons in H as [[= -> _] | H]; eauto.
Qed.

Lemma read_paths_elem path tr : path ∈ read_paths tr <-> EvRead path ∈ tr.
Proof.
  induction tr as [|[q|q c] tr IH]; cbn [read_paths].
  - split; intros H; exfalso; eapply not_elem_of_nil, H.
  - rewrite !elem_of_cons, IH. split; intros [H | H]; auto.
    + left. congruence.
    + left. congruence.
  - rewrite IH, elem_of_cons. split; [auto|intros [[=] | H]; exact H].
Qed.



(** The count is printed as an f-string prints an [int]. *)
Lemma decimal_instances :
  decimal 0 = "0"%string /\ decimal 1 = "1"%string
  /\ decimal 9 = "9"%string /\ decimal 10 = "10"%string
  /\ decimal 19 = "19"%string /\ decimal 205 = "205"%string.
Proof. repeat split; reflexivity. Qed.



(** * The claims on the driver *)

(** C6 (write if and only if changed).  On a file that exists,
    [convert_try_blocks] reads it once; its result is true exactly when the
    rewritten text differs from the text read; when it is true the file is
    opened for writing once and holds the whole rewritten text afterwards;
    when it is false there is no write and no file has changed. *)
Theorem C6_write_iff_changed (path : string) (w : world) (content : text) :
  files w !! path = Some content ->
  exists (changed : bool) (w' : world),
    convert_try_blocks path w = inr (changed, w')
    /\ (changed = true
        <-> re_sub try_pattern replace_try_block content <> content)
    /\ (changed = true ->
        trace w' = trace w
                   ++ [EvRead path;
                       EvWrite path
                         (re_sub try_pattern replace_try_block content)]
        /\ files w'
           = <[path := re_sub try_pattern replace_try_block content]>
               (files w))
    /\ (changed = false ->
        trace w' = trace w ++ [EvRead path] /\ files w' = files w).
Proof.
  intros Hf. rewrite (convert_try_blocks_run _ _ _ Hf). unfold rewriter.
  cbn [fst snd]. eexists _, _. split; [reflexivity|].
  split; [apply bool_decide_eq_true|].
  destruct (bool_decide _); split; intros [=]; auto.
Qed.

Lemma C6_write_iff_changed_witness :
  files one_file_world !! "/tmp/a_test.exs"%string = Some block_in_function
  /\ exists (changed : bool) (w' : world),
       convert_try_blocks "/tmp/a_test.exs" one_file_world = inr (changed, w')
       /\ (changed = true
           <-> re_sub try_pattern replace_try_block block_in_function
               <> block_in_function)
       /\ (changed = true ->
           trace w' = trace one_file_world
                      ++ [EvRead "/tmp/a_test.exs";
                          EvWrite "/tmp/a_test.exs"
                            (re_sub try_pattern replace_try_block
                               block_in_function)]
           /\ files w'
              = <["/tmp/a_test.exs"%string
                  := re_sub try_pattern replace_try_block block_in_function]>
                  (files one_file_world))
       /\ (changed = false ->
           trace w' = trace one_file_world ++ [EvRead "/tmp/a_test.exs"]
           /\ files w' = files one_file_world).
Proof.
  split; [apply lookup_singleton_eq|].
  apply C6_write_iff_changed. apply lookup_singleton_eq.
Defined.








(** * Further properties of the Rewriter *)

Lemma replace_try_block_13 s m :
  re_match try_pattern s = Some m ->
  (length (replace_try_block m) + 13 <= length (m_span m))%nat.
Proof.
  intros Hm. destruct (try_pattern_match _ _ Hm)
    as (ws1 & body & ws2 & kw & h & ws3 & [H1 _] & _ & [H3 _] & _ & _
        & -> & ->).
  rewrite !length_app, open_line_length, end_line_length.
  destruct ws1; [congruence|]. destruct ws3; [congruence|]. simpl. lia.
Qed.

Lemma rewrite_shrinks_13 s :
  no_match_in try_pattern s [] = false ->
  (length (re_sub try_pattern replace_try_block s) + 13 <= length s)%nat.
Proof.
  induction s as [|c s IH]; simpl; [discriminate|].
  rewrite app_nil_r. unfold matches_at.
  destruct (re_match try_pattern (c :: s)) as [m|] eqn:Hm; simpl.
  - intros _.
    rewrite (re_sub_match _ _ _ _ Hm (try_pattern_nonempty _ _ Hm)).
    pose proof (replace_try_block_13 _ _ Hm) as Hlt.
    destruct (re_match_sound _ _ _ Hm) as [Hs _].
    apply (f_equal (@length _)) in Hs. rewrite length_app in Hs.
    simpl in Hs. rewrite length_app.
    pose proof (rewrite_length (m_rest m)). lia.
  - intros H. rewrite (re_sub_no_match _ _ _ _ Hm). simpl.
    specialize (IH H). lia.
Qed.

Lemma rewrite_sublist s :
  re_sub try_pattern replace_try_block s `sublist_of` s.
Proof.
  assert (Hle : (length s <= length s)%nat) by lia.
  revert Hle. generalize (length s) at 2 as n. intros n. revert s.
  induction n as [|n IH]; intros s Hle.
  - destruct s; simpl in *; [constructor|lia].
  - destruct s as [|c s]; [constructor|].
    destruct (re_match try_pattern (c :: s)) as [m|] eqn:Hm.
    + rewrite (re_sub_match _ _ _ _ Hm (try_pattern_nonempty _ _ Hm)).
      pose proof (replace_try_block_shorter _ _ Hm) as Hlt.
      destruct (re_match_sound _ _ _ Hm) as [Hs _].
      assert (Hr : (length (m_rest m) <= n)%nat).
      { apply (f_equal (@length _)) in Hs. rewrite length_app in Hs.
        simpl in Hs, Hle. lia. }
      specialize (IH _ Hr).
      destruct (try_pattern_match _ _ Hm)
        as (ws1 & body & ws2 & kw & h & ws3 & _ & _ & _ & _ & -> & _ & ->).
      rewrite <- app_assoc. apply sublist_inserts_l.
      apply sublist_app; [reflexivity|].
      apply sublist_app; [reflexivity|].
      apply sublist_inserts_l, IH.
    + rewrite (re_sub_no_match _ _ _ _ Hm). apply sublist_skip, IH.
      simpl in Hle. lia.
Qed.

(** X1 (only deletions).  The Rewriter never inserts, alters or reorders a
    character: its output is the input with some characters left out. *)
Theorem X1_rewriter_only_deletes (content : text) :
  fst (rewriter content) `sublist_of` content.
Proof. apply rewrite_sublist. Qed.

(** X2 (the changed flag).  The flag is true exactly when the pattern
    matches somewhere in the text; then the output is at least 13
    characters shorter than the input (one character of indentation, the
    seven of [try do] and its newline, and the five of a terminator), and
    otherwise the output is the input. *)
Theorem X2_changed_iff_match (content : text) :
  (snd (rewriter content) = true
   <-> no_match_in try_pattern content [] = false)
  /\ (snd (rewriter content) = true ->
      (length (fst (rewriter content)) + 13 <= length content)%nat)
  /\ (snd (rewriter content) = false -> fst (rewriter content) = content).
Proof.
  destruct (no_match_in try_pattern content []) eqn:E.
  - rewrite (rewriter_unmatched _ E). cbn.
    repeat split; intros; congruence.
  - pose proof (rewrite_shrinks_13 _ E) as Hlen.
    assert (Hc : snd (rewriter content) = true).
    { unfold rewriter. cbn. apply bool_decide_eq_true_2. intros Heq.
      rewrite Heq in Hlen. lia. }
    rewrite Hc. repeat split; auto; discriminate.
Qed.

(** X3 (what a match is).  Wherever [try_pattern] matches, group 1 is a
    non-empty run of whitespace, [try do] and a newline follow it, group 3
    is a newline, whitespace, a handler keyword and the clause content,
    group 4 is a newline, whitespace and [end]; the groups and the literal
    make up the matched span, and the replacement is group 2 followed by
    group 3. *)
Theorem X3_match_anatomy (s : text) (m : match_obj) :
  re_match try_pattern s = Some m ->
  exists ws2 kw h ws3,
    indentation (group m 1) /\ indentation ws2 /\ indentation ws3
    /\ is_handler_keyword kw
    /\ group m 3 = nl :: ws2 ++ kw ++ h
    /\ group m 4 = nl :: ws3 ++ str "end"
    /\ m_span m
       = group m 1 ++ str "try do" ++ nl :: group m 2 ++ group m 3
         ++ group m 4
    /\ s = m_span m ++ m_rest m
    /\ replace_try_block m = group m 2 ++ group m 3.
Proof.
  intros Hm. destruct (re_match_sound _ _ _ Hm) as [Hs Hl].
  destruct (try_pattern_lang _ _ Hl)
    as (ws1 & body & ws2 & kw & h & ws3 & H1 & H2 & H3 & Hkw & Hspan & Hg).
  exists ws2, kw, h, ws3. unfold replace_try_block, group. rewrite Hg.
  cbn [block_groups set_group Nat.eqb].
  do 4 (split; [assumption|]). split; [reflexivity|].
  split; [reflexivity|]. split; [|split; [exact Hs|reflexivity]].
  rewrite Hspan. unfold open_line. norm_app. reflexivity.
Qed.

Lemma X3_match_anatomy_witness :
  exists m,
    re_match try_pattern
      (open_line (str "  ") ++ str "    a()"
       ++ handler_clause (str "  ") (str "rescue") (nl :: str "    e -> 1")
       ++ end_line (str "  ") ++ nl :: str "rest")
    = Some m
    /\ exists ws2 kw h ws3,
         indentation (group m 1) /\ indentation ws2 /\ indentation ws3
         /\ is_handler_keyword kw
         /\ group m 3 = nl :: ws2 ++ kw ++ h
         /\ group m 4 = nl :: ws3 ++ str "end"
         /\ m_span m
            = group m 1 ++ str "try do" ++ nl :: group m 2 ++ group m 3
              ++ group m 4
         /\ open_line (str "  ") ++ str "    a()"
            ++ handler_clause (str "  ") (str "rescue")
                 (nl :: str "    e -> 1")
            ++ end_line (str "  ") ++ nl :: str "rest"
            = m_span m ++ m_rest m
         /\ replace_try_block m = group m 2 ++ group m 3.
Proof.
  assert (Hm := re_match_block (str "  ") (str "    a()") (str "  ")
                  (str "rescue") (nl :: str "    e -> 1") (str "  ")
                  (nl :: str "rest")).
  eexists. split.
  - apply Hm; unfold indentation, is_handler_keyword;
      try (split; [discriminate | reflexivity]); auto; reflexivity.
  - apply X3_match_anatomy. apply Hm;
      unfold indentation, is_handler_keyword;
      try (split; [discriminate | reflexivity]); auto; reflexivity.
Defined.

(** X4 (two blocks).  Two blocks one after the other, with text between
    them in which the pattern does not match, are both rewritten, each as
    it would be alone, and the text between them is kept. *)
Theorem X4_two_blocks
    (ws1 body ws2 kw h ws3 gap ws1' body' ws2' kw' h' ws3' tail : text) :
  indentation ws1 -> indentation ws2 -> indentation ws3 ->
  is_handler_keyword kw ->
  indentation ws1' -> indentation ws2' -> indentation ws3' ->
  is_handler_keyword kw' ->
  no_match_in handler_head body
    (handler_clause ws2 kw h ++ end_line ws3 ++ gap
     ++ open_line ws1' ++ body' ++ handler_clause ws2' kw' h'
     ++ end_line ws3' ++ tail) = true ->
  no_match_in end_clause_re h
    (end_line ws3 ++ gap
     ++ open_line ws1' ++ body' ++ handler_clause ws2' kw' h'
     ++ end_line ws3' ++ tail) = true ->
  no_match_in try_pattern gap
    (open_line ws1' ++ body' ++ handler_clause ws2' kw' h'
     ++ end_line ws3' ++ tail) = true ->
  no_match_in handler_head body'
    (handler_clause ws2' kw' h' ++ end_line ws3' ++ tail) = true ->
  no_match_in end_clause_re h' (end_line ws3' ++ tail) = true ->
  rewriter
    (open_line ws1 ++ body ++ handler_clause ws2 kw h ++ end_line ws3
     ++ gap
     ++ open_line ws1' ++ body' ++ handler_clause ws2' kw' h'
     ++ end_line ws3' ++ tail)
  = (body ++ handler_clause ws2 kw h ++ gap
     ++ body' ++ handler_clause ws2' kw' h' ++ fst (rewriter tail), true).
Proof.
  intros H1 H2 H3 Hkw H1' H2' H3' Hkw' Hb Hh Hgap Hb' Hh'.
  rewrite rewriter_block by assumption. do 3 f_equal.
  unfold rewriter at 1. cbn [fst].
  rewrite (re_sub_prefix _ _ _ _ Hgap). f_equal.
  change (fst (rewriter
                 (open_line ws1' ++ body' ++ handler_clause ws2' kw' h'
                  ++ end_line ws3' ++ tail))
          = body' ++ handler_clause ws2' kw' h' ++ fst (rewriter tail)).
  rewrite rewriter_block by assumption. reflexivity.
Qed.

Lemma X4_two_blocks_witness :
  rewriter
    (open_line (str "  ") ++ str "    a()"
     ++ handler_clause (str "  ") (str "rescue") (nl :: str "    e -> 1")
     ++ end_line (str "  ")
     ++ (nl :: str "  mid()")
     ++ open_line (nl :: str "  ") ++ str "    b()"
     ++ handler_clause (str "  ") (str "after") (nl :: str "    c()")
     ++ end_line (str "  ") ++ nl :: str "done")
  = (str "    a()"
     ++ handler_clause (str "  ") (str "rescue") (nl :: str "    e -> 1")
     ++ (nl :: str "  mid()")
     ++ str "    b()"
     ++ handler_clause (str "  ") (str "after") (nl :: str "    c()")
     ++ fst (rewriter (nl :: str "done")), true).
Proof.
  apply (X4_two_blocks
           (str "  ") (str "    a()") (str "  ") (str "rescue")
           (nl :: str "    e -> 1") (str "  ") (nl :: str "  mid()")
           (nl :: str "  ") (str "    b()") (str "  ") (str "after")
           (nl :: str "    c()") (str "  ") (nl :: str "done"));
    unfold indentation, is_handler_keyword;
    try (split; [discriminate | reflexivity]); auto; reflexivity.
Defined.

Lemma matches_at_open_line ws rest :
  indentation ws -> matches_at open_line_re (open_line ws ++ rest) = true.
Proof.
  intros [Hne Hws]. unfold matches_at, re_match, open_line_re, open_line.
  rewrite rmatch_cat, <- !app_assoc.
  erewrite rmatch_plus_max; [reflexivity|exact Hne|exact Hws|reflexivity|].
  rewrite (app_assoc (str "try do") [nl]), rmatch_lit. reflexivity.
Qed.

Lemma try_match_has_open s :
  matches_at try_pattern s = true ->
  exists u v, s = u ++ v /\ v <> [] /\ matches_at open_line_re v = true.
Proof.
  unfold matches_at at 1.
  destruct (re_match try_pattern s) as [m|] eqn:Hm; [intros _|discriminate].
  destruct (try_pattern_match _ _ Hm)
    as (ws1 & body & ws2 & kw & h & ws3 & H1 & _ & _ & _ & -> & _).
  exists [], (open_line ws1 ++ body ++ handler_clause ws2 kw h
              ++ end_line ws3 ++ m_rest m).
  split; [reflexivity|]. split.
  - destruct H1 as [Hne _]. unfold open_line. destruct ws1; [congruence|].
    discriminate.
  - apply matches_at_open_line, H1.
Qed.

(** X5 (the block-open line).  A text is returned as it is when nowhere in
    it a whitespace character is followed by [try do] and a newline: a
    [try do] that starts the text, or is followed on its line by a space
    or a comment, opens no block for the Rewriter. *)
Theorem X5_open_line_needed (content : text) :
  no_match_in open_line_re content [] = true ->
  rewriter content = (content, false).
Proof.
  intros H. apply rewriter_unmatched.
  apply (no_part_no_match open_line_re try_match_has_open content []), H.
Qed.

Lemma X5_open_line_needed_witness :
  rewriter (unlines ["try do"; "  a()"; "  rescue"; "    e -> 1"; "  end";
                     "  try do # note"; "    b()"; "  rescue"; "    e -> 2";
                     "  end"]%string)
  = (unlines ["try do"; "  a()"; "  rescue"; "    e -> 1"; "  end";
              "  try do # note"; "    b()"; "  rescue"; "    e -> 2";
              "  end"]%string, false).
Proof. apply X5_open_line_needed. reflexivity. Defined.

Lemma no_match_in_app r a b c :
  no_match_in r (a ++ b) c = no_match_in r a (b ++ c) && no_match_in r b c.
Proof.
  induction a as [|x a IH]; simpl; [reflexivity|].
  rewrite IH, <- !app_assoc, andb_assoc. reflexivity.
Qed.

(** Two runs of whitespace, each before a [t], are the same run. *)
Lemma space_run_unique (a a' x x' : text) :
  forallb is_space a = true -> forallb is_space a' = true ->
  a ++ str "try do" ++ x = a' ++ str "try do" ++ x' ->
  a = a' /\ x = x'.
Proof.
  revert a'. induction a as [|c a IH]; intros [|c' a'] Ha Ha' E.
  - split; [reflexivity|]. apply (app_inv_head (str "try do")), E.
  - injection E as E _. simpl in Ha'. rewrite <- E in Ha'. discriminate.
  - injection E as E _. simpl in Ha. rewrite E in Ha. discriminate.
  - injection E as -> E. simpl in Ha, Ha'.
    apply andb_true_iff in Ha as [_ Ha]. apply andb_true_iff in Ha' as [_ Ha'].
    destruct (IH _ Ha Ha' E) as [-> ->]. auto.
Qed.

(** In a match the handler clause starts at least eight characters in. *)
Lemma try_match_handler_far s :
  matches_at try_pattern s = true ->
  exists u v,
    s = u ++ v /\ (8 <= length u)%nat /\ v <> []
    /\ matches_at handler_head v = true.
Proof.
  unfold matches_at at 1.
  destruct (re_match try_pattern s) as [m|] eqn:Hm; [intros _|discriminate].
  destruct (try_pattern_match _ _ Hm)
    as (ws1 & body & ws2 & kw & h & ws3 & [H1 _] & H2 & _ & Hkw & -> & _).
  exists (open_line ws1 ++ body),
         (handler_clause ws2 kw h ++ end_line ws3 ++ m_rest m).
  rewrite <- app_assoc. split; [reflexivity|]. split; [|split].
  - rewrite length_app, open_line_length. destruct ws1; [congruence|].
    simpl. lia.
  - discriminate.
  - apply matches_at_handler_clause; assumption.
Qed.

Lemma no_handler_after_short_prefix pre rest :
  (length pre <= 8)%nat ->
  no_match_in handler_head rest [] = true ->
  no_match_in try_pattern (pre ++ rest) [] = true.
Proof.
  intros Hlen Hrest. rewrite no_match_in_app, app_nil_r.
  apply andb_true_iff. split.
  - induction pre as [|c pre IH]; [reflexivity|]. simpl.
    apply andb_true_iff. split; [|apply IH; simpl in Hlen; lia].
    apply negb_true_iff.
    destruct (matches_at try_pattern (c :: pre ++ rest)) eqn:E;
      [|reflexivity].
    destruct (try_match_handler_far _ E) as (u & v & Huv & Hu & Hv & Hm).
    change (c :: pre ++ rest) with ((c :: pre) ++ rest) in Huv.
    symmetry in Huv. apply app_eq_app in Huv as [l [[-> ->] | [Hpre ->]]].
    + assert (Hn : matches_at handler_head (v ++ []) = false)
        by (eapply no_match_in_split; eauto).
      rewrite app_nil_r in Hn. congruence.
    + apply (f_equal (@length _)) in Hpre. rewrite length_app in Hpre.
      assert (l = []) as -> by (destruct l; simpl in *; [reflexivity|lia]).
      assert (Hn : matches_at handler_head (rest ++ []) = false)
        by (eapply (no_match_in_split _ _ _ []); eauto).
      rewrite app_nil_r in Hn. simpl in Hm. congruence.
  - apply (no_part_no_match handler_head try_match_has_handler rest []),
      Hrest.
Qed.

Lemma open_line_then_no_handler ws rest :
  forallb is_space ws = true ->
  no_match_in handler_head rest [] = true ->
  matches_at try_pattern (ws ++ str "try do" ++ nl :: rest) = false.
Proof.
  intros Hws Hrest.
  destruct (matches_at try_pattern _) eqn:E; [|reflexivity].
  unfold matches_at in E.
  destruct (re_match try_pattern _) as [m|] eqn:Hm; [|discriminate].
  destruct (try_pattern_match _ _ Hm)
    as (ws1 & body & ws2 & kw & h & ws3 & [_ H1] & H2 & _ & Hkw & Hs & _).
  unfold open_line in Hs. rewrite <- !app_assoc in Hs.
  apply space_run_unique in Hs as [_ Hs]; [|assumption..].
  injection Hs as Hs.
  assert (Hn : matches_at handler_head
                 ((handler_clause ws2 kw h ++ end_line ws3 ++ m_rest m)
                  ++ []) = false).
  { eapply (no_match_in_split _ _ _ body); eauto; discriminate. }
  rewrite app_nil_r, matches_at_handler_clause in Hn by assumption.
  discriminate.
Qed.

(** X6 (a handler clause right after the block-open line).  The newline
    that ends the block-open line belongs to the block-open marker, so a
    handler keyword on the very next line is not taken as the handler
    clause: when no later line of the text is a handler line either, the
    block is not rewritten. *)
Theorem X6_handler_on_first_line (ws rest : text) :
  forallb is_space ws = true ->
  no_match_in handler_head rest [] = true ->
  rewriter (ws ++ str "try do" ++ nl :: rest)
  = (ws ++ str "try do" ++ nl :: rest, false).
Proof.
  intros Hws Hrest. apply rewriter_unmatched.
  rewrite no_match_in_app, app_nil_r. apply andb_true_iff. split.
  - induction ws as [|c ws IH]; [reflexivity|]. simpl in Hws |- *.
    apply andb_true_iff in Hws as [Hc Hws].
    apply andb_true_iff. split; [|apply IH, Hws].
    apply negb_true_iff.
    apply (open_line_then_no_handler (c :: ws)); [|exact Hrest].
    simpl. rewrite Hc. exact Hws.
  - apply (no_handler_after_short_prefix (str "try do" ++ [nl]) rest);
      [simpl; lia|exact Hrest].
Qed.

Lemma X6_handler_on_first_line_witness :
  rewriter (str "  " ++ str "try do"
            ++ nl :: unlines ["  rescue"; "    e -> e"; "  end"]%string)
  = (str "  " ++ str "try do"
     ++ nl :: unlines ["  rescue"; "    e -> e"; "  end"]%string, false)
  /\ str "  " ++ str "try do"
     ++ nl :: unlines ["  rescue"; "    e -> e"; "  end"]%string
     = empty_body_block.
Proof.
  split; [apply X6_handler_on_first_line; reflexivity | reflexivity].
Defined.

Lemma rewrite_times_fixed n s :
  rewriter s = (s, false) -> rewrite_times n s = s.
Proof.
  intros H. induction n as [|n IH]; cbn [rewrite_times]; [reflexivity|].
  rewrite H. exact IH.
Qed.

(** X7 (repeated passes).  Each pass that changes the text takes at least
    13 characters away, so repeated passes come to rest: after [n] passes,
    whenever the text has at most [13 * n] characters, one more pass
    returns the text as it is with changed = false. *)
Theorem X7_passes_settle (n : nat) (content : text) :
  (length content <= 13 * n)%nat ->
  rewriter (rewrite_times n content) = (rewrite_times n content, false).
Proof.
  revert content. induction n as [|n IH]; intros content Hlen.
  - destruct content; [reflexivity|simpl in Hlen; lia].
  - cbn [rewrite_times].
    destruct (no_match_in try_pattern content []) eqn:E.
    + rewrite (rewriter_unmatched _ E). cbn [fst].
      rewrite (rewrite_times_fixed n _ (rewriter_unmatched _ E)).
      apply rewriter_unmatched, E.
    + apply IH. pose proof (rewrite_shrinks_13 _ E). unfold rewriter.
      cbn [fst]. lia.
Qed.

Lemma X7_passes_settle_witness :
  (length nested_blocks <= 13 * 5)%nat
  /\ rewriter (rewrite_times 5 nested_blocks)
     = (rewrite_times 5 nested_blocks, false).
Proof.
  split; [vm_compute; lia | apply X7_passes_settle; vm_compute; lia].
Defined.

(** * Further properties of the driver *)









